(** * sftui: the input/tick event pipeline of [src/main.rs]

    Shallow embedding of the two execution units of the program:
    - the Render/Dispatch loop of [main] with [handle_input];
    - the background poller of [start_polling_thread].

    Terminal, channel and clock effects are explicit state passing; the
    outcome of every fallible library call is an input of the model
    (a fault oracle or a recorded observation), so the theorems hold for
    every behaviour of the environment. *)

From Stdlib Require Import Bool List NArith String Lia.
Import ListNotations.
Open Scope N_scope.

(** ** Data model *)

(** A Rust [char], as its Unicode scalar value. *)
Definition char := N.
Definition char_q : char := 113.   (* 'q' *)
Definition char_x : char := 120.   (* 'x' *)

(** [crossterm::event::KeyCode]. *)
Inductive KeyCode :=
| Backspace | Enter | Left | Right | Up | Down | Home | End
| PageUp | PageDown | Tab | BackTab | Delete | Insert
| F (n : N)                 (* u8 *)
| Char (c : char)
| Null | Esc.

(** [crossterm::event::KeyModifiers]: a bitflags u8. *)
Definition KeyModifiers := N.
Definition NONE : KeyModifiers := 0.
Definition SHIFT : KeyModifiers := 1.
Definition CONTROL : KeyModifiers := 2.
Definition ALT : KeyModifiers := 4.

(** [crossterm::event::KeyEvent]. *)
Record KeyEvent := mkKeyEvent { code : KeyCode; modifiers : KeyModifiers }.

(** [crossterm::event::Event] (imported as [CEvent]). *)
Inductive CEvent :=
| Key (k : KeyEvent)
| Mouse (m : N)                (* payload irrelevant to the program *)
| Resize (cols rows : N).

(** [enum Event<I> { Input(I), Tick }]. *)
Inductive Event (I : Type) := Input (i : I) | Tick.
Arguments Input {I} i.
Arguments Tick {I}.

(** [enum InputEventResult { Continue, Quit }]. *)
Inductive InputEventResult := Continue | Quit.

(** The errors boxed into [Box<dyn std::error::Error>] by [?]. *)
Inductive Error :=
| TerminalNewError | ClearError      (* setup *)
| DrawError                          (* render_ui *)
| RecvError                          (* rx.recv(): all senders dropped *)
| DisableRawError | ShowCursorError. (* quit path *)

Inductive result (A : Type) := Ok (a : A) | Err (e : Error).
Arguments Ok {A} a.
Arguments Err {A} e.

(** ** [handle_input] *)

(** The receiving end [rx] as the Loop sees it: the events the poller
    has enqueued and will enqueue, in FIFO order, and whether a [Sender]
    is still alive once they are consumed. *)
Record Rx := mkRx { pending : list (Event KeyEvent); senders_alive : bool }.

(** [rx.recv()]: the head of the queue; on an empty queue it blocks
    forever ([None]) while a sender lives, else it fails. *)
Definition recv (rx : Rx) : option (result (Event KeyEvent) * Rx) :=
  match rx.(pending) with
  | ev :: rest => Some (Ok ev, mkRx rest rx.(senders_alive))
  | [] => if rx.(senders_alive) then None else Some (Err RecvError, rx)
  end.

(** [fn handle_input(rx) -> Result<InputEventResult, _>]: [None] when
    [rx.recv()] blocks forever; [?] propagates a receive error. *)
Definition handle_input (rx : Rx) : option (result InputEventResult * Rx) :=
  match recv rx with
  | None => None
  | Some (Err e, rx') => Some (Err e, rx')
  | Some (Ok (Input event), rx') =>
      match event.(code) with
      | Char c => if N.eqb c char_q then Some (Ok Quit, rx')
                  else Some (Ok Continue, rx')
      | _ => Some (Ok Continue, rx')
      end
  | Some (Ok Tick, rx') => Some (Ok Continue, rx')
  end.

(** ** Terminal lifecycle and the Render/Dispatch loop of [main] *)

(** Terminal operations the program performs, in order. *)
Inductive action :=
| AEnableRaw | ATerminalNew | AClear
| ADraw | ARecv | ADisableRaw | AShowCursor
| ADropShowCursor.   (* show_cursor attempted by [Terminal]'s [Drop] *)

(** The terminal: crossterm's process-wide raw-mode flag, tui's
    [Terminal::hidden_cursor] flag, the number of [draw] calls, and the
    log of operations. *)
Record Term := mkTerm {
  raw_mode : bool; hidden_cursor : bool; draws : nat; log : list action }.

Definition cursor_visible (t : Term) : bool := negb t.(hidden_cursor).

Definition term0 : Term := mkTerm false false 0 [].

Definition emit (t : Term) (a : action) : Term :=
  mkTerm t.(raw_mode) t.(hidden_cursor) t.(draws) (t.(log) ++ [a]).
Definition set_raw (t : Term) (b : bool) : Term :=
  mkTerm b t.(hidden_cursor) t.(draws) t.(log).
Definition set_hidden (t : Term) (b : bool) : Term :=
  mkTerm t.(raw_mode) b t.(draws) t.(log).

(** Which terminal calls fail: an oracle for the environment. *)
Record Faults := mkFaults {
  enable_raw_fails : bool;
  terminal_new_fails : bool;
  clear_fails : bool;
  draw_fails : nat -> bool;       (* indexed by the number of earlier draws *)
  disable_raw_fails : bool;
  show_cursor_fails : bool }.

Definition no_faults : Faults :=
  mkFaults false false false (fun _ => false) false false.

(** [render_ui(&mut terminal)?]: one [terminal.draw]. The frame sets no
    cursor position, so a completed [draw] hides the cursor (tui's
    [Terminal::draw] calls [hide_cursor]); a failed one is modelled as
    failing before that point. *)
Definition render_ui (fl : Faults) (t : Term) : result unit * Term :=
  let t1 := emit t ADraw in
  let t2 := mkTerm t1.(raw_mode) t1.(hidden_cursor) (S t.(draws)) t1.(log) in
  if fl.(draw_fails) t.(draws) then (Err DrawError, t2)
  else (Ok tt, set_hidden t2 true).

(** [disable_raw_mode()?]. *)
Definition disable_raw_mode (fl : Faults) (t : Term) : result unit * Term :=
  let t1 := emit t ADisableRaw in
  if fl.(disable_raw_fails) then (Err DisableRawError, t1)
  else (Ok tt, set_raw t1 false).

(** [terminal.show_cursor()?]: tui clears [hidden_cursor] on success. *)
Definition show_cursor (fl : Faults) (t : Term) : result unit * Term :=
  let t1 := emit t AShowCursor in
  if fl.(show_cursor_fails) then (Err ShowCursorError, t1)
  else (Ok tt, set_hidden t1 false).

(** tui's [impl Drop for Terminal]: when [main] returns, the dropped
    terminal shows the cursor if its [hidden_cursor] flag is set
    (a failure is only printed). *)
Definition terminal_drop (fl : Faults) (t : Term) : Term :=
  if t.(hidden_cursor) then
    let t1 := emit t ADropShowCursor in
    if fl.(show_cursor_fails) then t1 else set_hidden t1 false
  else t.

Inductive Outcome :=
| Returned (r : result unit) (t : Term)   (* [main] returns [r] *)
| Blocked (t : Term)                      (* blocked forever in [recv] *)
| Panicked (t : Term)                     (* [expect] failed in [main] *)
| OutOfFuel (t : Term).

(** The [loop { ... }] of [main]; [fuel] bounds the number of iterations. *)
Fixpoint run_loop (fuel : nat) (fl : Faults) (rx : Rx) (t : Term) : Outcome :=
  match fuel with
  | O => OutOfFuel t
  | S fuel' =>
      match render_ui fl t with
      | (Err e, t1) => Returned (Err e) t1
      | (Ok _, t1) =>
          let t2 := emit t1 ARecv in
          match handle_input rx with
          | None => Blocked t2
          | Some (Err e, _) => Returned (Err e) t2
          | Some (Ok Quit, _) =>
              match disable_raw_mode fl t2 with
              | (Err e, t3) => Returned (Err e) t3
              | (Ok _, t3) =>
                  match show_cursor fl t3 with
                  | (Err e, t4) => Returned (Err e) t4
                  | (Ok _, t4) => Returned (Ok tt) t4   (* break; Ok(()) *)
                  end
              end
          | Some (Ok Continue, rx') => run_loop fuel' fl rx' t2
          end
      end
  end.

(** Dropping the locals when [main] returns: [terminal] only. *)
Definition finish (fl : Faults) (o : Outcome) : Outcome :=
  match o with
  | Returned r t => Returned r (terminal_drop fl t)
  | o => o
  end.

(** [fn main()]. [start_polling_thread(tx)] is the producer of [rx]; the
    unused [metadata_list_state] has no effect. Each loop iteration
    consumes one event, so [S (List.length (pending rx))] iterations suffice. *)
Definition main (fl : Faults) (rx : Rx) : Outcome :=
  let t0 := emit term0 AEnableRaw in
  if fl.(enable_raw_fails) then Panicked t0    (* expect("cannot run in raw mode") *)
  else
    let t1 := emit (set_raw t0 true) ATerminalNew in
    if fl.(terminal_new_fails) then Returned (Err TerminalNewError) t1
    else
      let t2 := emit t1 AClear in
      if fl.(clear_fails) then finish fl (Returned (Err ClearError) t2)
      else finish fl (run_loop (S (List.length rx.(pending))) fl rx t2).

(** Process exit status: [Ok(())] from [main] is 0, [Err] is 1, a panic
    of the main thread is 101; a blocked loop never exits. *)
Definition exit_code (o : Outcome) : option N :=
  match o with
  | Returned (Ok _) _ => Some 0
  | Returned (Err _) _ => Some 1
  | Panicked _ => Some 101
  | Blocked _ | OutOfFuel _ => None
  end.

Definition term_of (o : Outcome) : Term :=
  match o with
  | Returned _ t | Blocked t | Panicked t | OutOfFuel t => t
  end.

Definition key (c : KeyCode) : KeyEvent := mkKeyEvent c NONE.

(** Scenarios A, B and C of the spec, evaluated. *)
Example scenario_A :
  let o := main no_faults (mkRx (repeat Tick 5) true) in
  o = Blocked (term_of o) /\ (term_of o).(draws) = 6%nat.
Proof. split; reflexivity. Qed.

Example scenario_B :
  let o := main no_faults (mkRx [Input (key (Char char_x)); Tick] true) in
  o = Blocked (term_of o) /\ (term_of o).(draws) = 3%nat.
Proof. split; reflexivity. Qed.

Example scenario_C :
  let o := main no_faults (mkRx [Input (key (Char char_q))] true) in
  exit_code o = Some 0 /\ (term_of o).(draws) = 1%nat /\
  (term_of o).(raw_mode) = false /\ cursor_visible (term_of o) = true.
Proof. repeat split; reflexivity. Qed.

(** ** The poller of [start_polling_thread] *)

(** Instants and durations in nanoseconds. *)
Definition tick_rate : N := 200 * 1000000.   (* Duration::from_millis(200) *)

(** [Duration::checked_sub]. *)
Definition checked_sub (a b : N) : option N :=
  if b <=? a then Some (a - b) else None.

(** [last.elapsed()] read at instant [now]: saturating, as [Instant]'s. *)
Definition elapsed (last now : N) : N := now - last.

(** The sending end [tx]: the channel queue and whether [rx] still lives. *)
Record Tx := mkTx { queue : list (Event KeyEvent); receiver_alive : bool }.

(** [tx.send(ev)]: [Err] once the receiver is dropped. *)
Definition send (tx : Tx) (ev : Event KeyEvent) : bool * Tx :=
  if tx.(receiver_alive)
  then (true, mkTx (tx.(queue) ++ [ev]) true)
  else (false, tx).

(** What the environment answers during one iteration. *)
Inductive read_outcome := ReadErr | ReadOk (e : CEvent).
Inductive poll_outcome :=
| PollErr                       (* event::poll(timeout) is Err *)
| PollNone                      (* Ok(false): nothing within timeout *)
| PollSome (r : read_outcome).  (* Ok(true), then event::read() *)

(** The clock readings of one iteration: at [last_tick.elapsed()] of the
    timeout, at [last_tick.elapsed()] of the tick check, and at
    [Instant::now()] of the reset. *)
Record Obs := mkObs {
  t_timeout : N; polled : poll_outcome; t_check : N; t_reset : N }.

(** What the poller does, in order. *)
Inductive paction :=
| PPoll (timeout : N)
| PRead
| PSend (ev : Event KeyEvent) (ok : bool)
| PCheckTick (elapsed : N)
| PResetTick (now : N).

(** Lines 106-108: the timeout of the wait. *)
Definition poll_timeout (last_tick now : N) : N :=
  match checked_sub tick_rate (elapsed last_tick now) with
  | Some d => d
  | None => 0      (* unwrap_or_else(|| Duration::from_secs(0)) *)
  end.

(** Lines 110-114: wait, read, forward a key event. [inl msg] is the
    panic of an [expect]. *)
Definition input_phase (tx : Tx) (p : poll_outcome)
  : (string + Tx) * list paction :=
  match p with
  | PollErr => (inl "Polling is broken"%string, [])
  | PollNone => (inr tx, [])
  | PollSome ReadErr => (inl "Cannot read events"%string, [PRead])
  | PollSome (ReadOk (Key k)) =>
      let '(ok, tx') := send tx (Input k) in
      ((if ok then inr tx' else inl "Cannot send events"%string),
       [PRead; PSend (Input k) ok])
  | PollSome (ReadOk _) => (inr tx, [PRead])
  end.

(** Lines 116-120: the tick check; the clock is reset only when the send
    of [Tick] succeeded. *)
Definition tick_phase (last_tick : N) (tx : Tx) (o : Obs)
  : N * Tx * list paction :=
  let el := elapsed last_tick o.(t_check) in
  if tick_rate <=? el then
    let '(ok, tx') := send tx Tick in
    if ok then (o.(t_reset), tx', [PCheckTick el; PSend Tick true; PResetTick o.(t_reset)])
    else (last_tick, tx', [PCheckTick el; PSend Tick false])
  else (last_tick, tx, [PCheckTick el]).

(** The state of the poller thread after an iteration. *)
Inductive PState :=
| PRunning (last_tick : N) (tx : Tx)
| PDied (msg : string) (tx : Tx).   (* the thread panicked; [tx] is dropped *)

(** One pass of the poller's [loop]. *)
Definition poller_iter (last_tick : N) (tx : Tx) (o : Obs)
  : PState * list paction :=
  let timeout := poll_timeout last_tick o.(t_timeout) in
  match input_phase tx o.(polled) with
  | (inl msg, tr) => (PDied msg tx, PPoll timeout :: tr)
  | (inr tx1, tr) =>
      let '(lt, tx2, tr2) := tick_phase last_tick tx1 o in
      (PRunning lt tx2, PPoll timeout :: tr ++ tr2)
  end.

(** The poller over a sequence of iterations, with its trace. *)
Fixpoint run_poller (last_tick : N) (tx : Tx) (os : list Obs)
  : PState * list paction :=
  match os with
  | [] => (PRunning last_tick tx, [])
  | o :: os' =>
      match poller_iter last_tick tx o with
      | (PDied msg tx1, tr) => (PDied msg tx1, tr)
      | (PRunning lt tx1, tr) =>
          let '(st, tr') := run_poller lt tx1 os' in (st, tr ++ tr')
      end
  end.

(** What the Loop's [rx] sees of a poller state: its queue, and a live
    sender unless the thread died. *)
Definition rx_of (st : PState) : Rx :=
  match st with
  | PRunning _ tx => mkRx tx.(queue) true
  | PDied _ tx => mkRx tx.(queue) false
  end.

Definition ms (n : N) : N := n * 1000000.

Example poller_ex1 :
  run_poller 0 (mkTx [] true)
    [mkObs (ms 50) (PollSome (ReadOk (Key (key (Char char_x))))) (ms 60) (ms 60);
     mkObs (ms 60) PollNone (ms 200) (ms 201)]
  = (PRunning (ms 201) (mkTx [Input (key (Char char_x)); Tick] true),
     [PPoll (ms 150); PRead; PSend (Input (key (Char char_x))) true; PCheckTick (ms 60);
      PPoll (ms 140); PCheckTick (ms 200); PSend Tick true; PResetTick (ms 201)]).
Proof. reflexivity. Qed.

(** ** Loop-side lemmas *)

Definition steady (k : nat) : list action := List.concat (List.repeat [ADraw; ARecv] k).

Lemma steady_S k : steady (S k) = [ADraw; ARecv] ++ steady k.
Proof. reflexivity. Qed.

Lemma emit_log t a : (emit t a).(log) = t.(log) ++ [a].
Proof. reflexivity. Qed.

(** Shape of the loop's log: [k] complete iterations, then a prefix of
    the last one. *)
Lemma run_loop_log_shape fuel fl rx t :
  exists k tail rest,
    (term_of (run_loop fuel fl rx t)).(log) = t.(log) ++ steady k ++ tail /\
    [ADraw; ARecv; ADisableRaw; AShowCursor] = tail ++ rest /\
    (term_of (run_loop fuel fl rx t)).(draws) =
      (t.(draws) + k + match tail with [] => 0 | _ => 1 end)%nat.
Proof.
  revert rx t; induction fuel as [|fuel IH]; intros rx t.
  - exists 0%nat, [], [ADraw; ARecv; ADisableRaw; AShowCursor].
    simpl; rewrite app_nil_r; split; [reflexivity | split; [reflexivity | lia]].
  - simpl run_loop; unfold render_ui.
    destruct (draw_fails fl (draws t)); simpl.
    { exists 0%nat, [ADraw], [ARecv; ADisableRaw; AShowCursor].
      simpl; repeat split; lia. }
    destruct (handle_input rx) as [[[[|] | e] rx'] |]; simpl; swap 1 2.
    + unfold disable_raw_mode; destruct (disable_raw_fails fl); simpl.
      { exists 0%nat, [ADraw; ARecv; ADisableRaw], [AShowCursor].
        simpl; rewrite <- ?app_assoc; repeat split; lia. }
      unfold show_cursor; destruct (show_cursor_fails fl); simpl;
        exists 0%nat, [ADraw; ARecv; ADisableRaw; AShowCursor], [];
        simpl; rewrite <- ?app_assoc; repeat split; lia.
    + destruct (IH rx' (emit (set_hidden (mkTerm (raw_mode t) (hidden_cursor t)
                 (S (draws t)) (log t ++ [ADraw])) true) ARecv))
        as (k & tail & rest & Hlog & Htail & Hdr).
      exists (S k), tail, rest; split; [|split; [exact Htail|]].
      * rewrite Hlog; simpl; rewrite <- ?app_assoc; reflexivity.
      * rewrite Hdr; simpl; lia.
    + exists 0%nat, [ADraw; ARecv], [ADisableRaw; AShowCursor].
      simpl; rewrite <- ?app_assoc; repeat split; lia.
    + exists 0%nat, [ADraw; ARecv], [ADisableRaw; AShowCursor].
      simpl; rewrite <- ?app_assoc; repeat split; lia.
Qed.

(** A draw or receive error leaves raw mode as it was, and the loop has
    called neither [disable_raw_mode] nor [show_cursor]. *)
Lemma run_loop_err_no_restore fuel fl rx t e t' :
  run_loop fuel fl rx t = Returned (Err e) t' ->
  e = DrawError \/ e = RecvError ->
  t'.(raw_mode) = t.(raw_mode) /\
  exists l, t'.(log) = t.(log) ++ l /\ ~ In ADisableRaw l /\ ~ In AShowCursor l.
Proof.
  revert rx t; induction fuel as [|fuel IH]; intros rx t Hrun He; [discriminate|].
  simpl in Hrun; unfold render_ui in Hrun.
  destruct (draw_fails fl (draws t)).
  { injection Hrun as <- <-; split; [reflexivity|].
    exists [ADraw]; simpl; split; [reflexivity|]; split; intros [H|H]; easy. }
  destruct (handle_input rx) as [[[[|] | e'] rx'] |]; swap 1 2.
  - unfold disable_raw_mode, show_cursor in Hrun.
    destruct (disable_raw_fails fl); [|destruct (show_cursor_fails fl)];
      inversion Hrun; subst; destruct He; discriminate.
  - apply IH in Hrun as [Hraw (l & Hl & H1 & H2)]; [|exact He].
    split; [exact Hraw|].
    exists ([ADraw; ARecv] ++ l); rewrite Hl; simpl; rewrite <- ?app_assoc.
    split; [reflexivity|]; split; intros [H|[H|H]]; easy.
  - injection Hrun as <- <-; split; [reflexivity|].
    exists [ADraw; ARecv]; simpl; rewrite <- ?app_assoc; split; [reflexivity|].
    split; intros [H|[H|H]]; easy.
  - discriminate.
Qed.

Lemma terminal_drop_raw fl t : (terminal_drop fl t).(raw_mode) = t.(raw_mode).
Proof.
  unfold terminal_drop; destruct (hidden_cursor t), (show_cursor_fails fl); reflexivity.
Qed.

Lemma terminal_drop_log fl t :
  (terminal_drop fl t).(log) = t.(log) \/
  (terminal_drop fl t).(log) = t.(log) ++ [ADropShowCursor].
Proof.
  unfold terminal_drop; destruct (hidden_cursor t), (show_cursor_fails fl); simpl; auto.
Qed.

(** ** Claims about the Render/Dispatch loop *)

(** C1: for every event received, [handle_input] decides [Quit] exactly
    when the event is [Input] with key code [Char('q')]; every other
    [Input] and every [Tick] yields [Continue]. *)
Theorem handle_input_quit_iff ev rest alive :
  exists d, handle_input (mkRx (ev :: rest) alive) = Some (Ok d, mkRx rest alive) /\
    (d = Quit <-> exists k, ev = Input k /\ k.(code) = Char char_q) /\
    (d = Continue <-> ~ exists k, ev = Input k /\ k.(code) = Char char_q).
Proof.
  destruct ev as [[c m] |]; unfold handle_input, recv; simpl.
  - destruct c; simpl;
      try solve [exists Continue; split; [reflexivity|];
           split; split; intros H; try discriminate;
           try (destruct H as (k & Hk & Hc); injection Hk as <-; discriminate);
           try (intros (k & Hk & Hc); injection Hk as <-; discriminate); reflexivity].
    destruct (N.eqb_spec c char_q) as [->|Hne].
    + exists Quit; split; [reflexivity|]; split; split; intros H; try discriminate.
      * exists (mkKeyEvent (Char char_q) m); split; reflexivity.
      * reflexivity.
      * exfalso; apply H; exists (mkKeyEvent (Char char_q) m); split; reflexivity.
    + exists Continue; split; [reflexivity|]; split; split; intros H; try discriminate.
      * destruct H as (k & Hk & Hc); injection Hk as <-; simpl in Hc.
        injection Hc as Hc; contradiction.
      * intros (k & Hk & Hc); injection Hk as <-; simpl in Hc.
        injection Hc as Hc; contradiction.
      * reflexivity.
  - exists Continue; split; [reflexivity|]; split; split; intros H; try discriminate.
    + destruct H as (k & Hk & _); discriminate.
    + intros (k & Hk & _); discriminate.
    + reflexivity.
Qed.

(** C10: [handle_input] looks at the key code only: [Char('q')] quits
    whatever the modifiers, and changing the modifiers of any [Input]
    never changes the decision. *)
Theorem handle_input_ignores_modifiers c m m' rest alive :
  handle_input (mkRx (Input (mkKeyEvent (Char char_q) m) :: rest) alive)
    = Some (Ok Quit, mkRx rest alive) /\
  handle_input (mkRx (Input (mkKeyEvent c m) :: rest) alive)
    = handle_input (mkRx (Input (mkKeyEvent c m') :: rest) alive).
Proof. split; reflexivity. Qed.

(** C5: every steady-state iteration of the loop, whatever event it
    received, is exactly one draw followed by one receive: the loop's log
    is [k] blocks [ADraw; ARecv] followed by a prefix of the final
    iteration [ADraw; ARecv; ADisableRaw; AShowCursor], and one draw is
    counted per started iteration. *)
Theorem loop_one_draw_per_iteration fuel fl rx t :
  exists k tail rest,
    (term_of (run_loop fuel fl rx t)).(log) =
      t.(log) ++ List.concat (List.repeat [ADraw; ARecv] k) ++ tail /\
    [ADraw; ARecv; ADisableRaw; AShowCursor] = tail ++ rest /\
    (term_of (run_loop fuel fl rx t)).(draws) =
      (t.(draws) + k + match tail with [] => 0 | _ => 1 end)%nat.
Proof. exact (run_loop_log_shape fuel fl rx t). Qed.

(** C2 (as the code does it): once [Input('q')] is dispatched, the loop
    calls [disable_raw_mode] and then [show_cursor] and ends: no further
    draw or receive, and it never returns to steady state. It returns
    [Ok(())] (exit status 0, raw mode off, cursor shown) exactly when both
    calls succeed; a failure of either is propagated by [?] (status 1). *)
Theorem loop_quit_terminates fuel fl k rest alive t :
  k.(code) = Char char_q ->
  fl.(draw_fails) t.(draws) = false ->
  exists r t',
    run_loop (S fuel) fl (mkRx (Input k :: rest) alive) t = Returned r t' /\
    t'.(log) = t.(log) ++ [ADraw; ARecv; ADisableRaw] ++
                 (if fl.(disable_raw_fails) then [] else [AShowCursor]) /\
    t'.(draws) = S t.(draws) /\
    (r = Ok tt <-> fl.(disable_raw_fails) = false /\ fl.(show_cursor_fails) = false) /\
    (r = Ok tt -> t'.(raw_mode) = false /\ cursor_visible t' = true /\
                  terminal_drop fl t' = t') /\
    exit_code (finish fl (Returned r t')) =
      Some (if fl.(disable_raw_fails) || fl.(show_cursor_fails) then 1 else 0).
Proof.
  intros Hc Hd; destruct k as [c m]; simpl in Hc; subst c.
  simpl run_loop; unfold render_ui; rewrite Hd.
  unfold handle_input, recv; simpl.
  unfold disable_raw_mode, show_cursor.
  destruct (disable_raw_fails fl) eqn:E1; [|destruct (show_cursor_fails fl) eqn:E2];
    eexists _, _; (split; [reflexivity|]); simpl; rewrite <- ?app_assoc;
    repeat split; try reflexivity; try discriminate; try (intros [H1 H2]; discriminate);
    intros _; reflexivity.
Qed.

Lemma loop_quit_terminates_witness :
  exists r t',
    run_loop 1 no_faults (mkRx [Input (key (Char char_q))] true) term0 = Returned r t' /\
    r = Ok tt.
Proof.
  destruct (loop_quit_terminates 0 no_faults (key (Char char_q)) [] true term0
              eq_refl eq_refl) as (r & t' & Hrun & _ & _ & [_ Hok] & _).
  exists r, t'; split; [exact Hrun | apply Hok; split; reflexivity].
Defined.

Definition fl_disable_fails : Faults :=
  mkFaults false false false (fun _ => false) true false.

(** C2 as stated fails: after [Input('q')] the program does not always
    exit with status 0; when [disable_raw_mode] fails, [main] returns
    the error (status 1) and raw mode stays on. *)
Lemma quit_not_always_success :
  let o := main fl_disable_fails (mkRx [Input (key (Char char_q))] true) in
  exit_code o = Some 1 /\ (term_of o).(raw_mode) = true /\ exit_code o <> Some 0.
Proof. simpl; repeat split; discriminate. Qed.

(** C8 (as the code does it): a failed draw is returned by the loop at
    once, and so is a failed receive; a [main] that ends with either
    error exits with status 1, raw mode still on, and the program has
    called neither [disable_raw_mode] nor [show_cursor] (only tui's drop
    of the terminal may show the cursor again). *)
Theorem loop_error_propagates_no_restore :
  (forall fuel fl rx t, fl.(draw_fails) t.(draws) = true ->
     exists t', run_loop (S fuel) fl rx t = Returned (Err DrawError) t') /\
  (forall fuel fl t, fl.(draw_fails) t.(draws) = false ->
     exists t', run_loop (S fuel) fl (mkRx [] false) t = Returned (Err RecvError) t') /\
  (forall fl rx e t, main fl rx = Returned (Err e) t ->
     e = DrawError \/ e = RecvError ->
     exit_code (main fl rx) = Some 1 /\ t.(raw_mode) = true /\
     ~ In ADisableRaw t.(log) /\ ~ In AShowCursor t.(log) /\
     (t.(log) = [AEnableRaw; ATerminalNew; AClear] ++ skipn 3 t.(log))).
Proof.
  split; [|split].
  - intros fuel fl rx t Hd; simpl; unfold render_ui; rewrite Hd; eexists; reflexivity.
  - intros fuel fl t Hd; simpl; unfold render_ui; rewrite Hd; eexists; reflexivity.
  - intros fl rx e t Hmain He; rewrite Hmain; split; [reflexivity|].
    unfold main in Hmain.
    destruct (enable_raw_fails fl); [discriminate|].
    destruct (terminal_new_fails fl); [injection Hmain as <- _; destruct He; discriminate|].
    destruct (clear_fails fl); [injection Hmain as <- _; destruct He; discriminate|].
    unfold finish in Hmain.
    destruct (run_loop _ fl rx _) eqn:Hrun; try discriminate.
    injection Hmain as -> <-.
    destruct (run_loop_err_no_restore _ _ _ _ _ _ Hrun He) as [Hraw (l & Hl & H1 & H2)].
    rewrite terminal_drop_raw, Hraw; split; [reflexivity|].
    destruct (terminal_drop_log fl t0) as [Hd|Hd]; rewrite Hd, Hl; simpl;
      rewrite ?in_app_iff, ?skipn_app; simpl;
      repeat split; try reflexivity;
      intros H; repeat (destruct H as [H|H]; try discriminate); tauto.
Qed.

Lemma loop_error_propagates_no_restore_witness :
  exists e t, main no_faults (mkRx [] false) = Returned (Err e) t /\
    (e = DrawError \/ e = RecvError) /\ exit_code (main no_faults (mkRx [] false)) = Some 1.
Proof.
  eexists _, _; split; [reflexivity|].
  split; [right; reflexivity|].
  destruct loop_error_propagates_no_restore as (_ & _ & H).
  exact (proj1 (H no_faults (mkRx [] false) RecvError _ eq_refl (or_intror eq_refl))).
Defined.

(** C8 as stated fails: on the receive-error path the cursor is shown
    again, by the drop of the [Terminal] when [main] returns (the first
    draw had hidden it); raw mode is indeed left on. *)
Lemma error_path_cursor_shown :
  let o := main no_faults (mkRx [] false) in
  exit_code o = Some 1 /\ (term_of o).(raw_mode) = true /\
  In ADropShowCursor (term_of o).(log) /\ cursor_visible (term_of o) = true.
Proof. simpl; repeat split; auto 10. Qed.

(** ** Poller-side lemmas *)

Definition is_tick (ev : Event KeyEvent) : bool :=
  match ev with Tick => true | Input _ => false end.

Definition count_ticks (l : list (Event KeyEvent)) : nat :=
  List.length (List.filter is_tick l).

Lemma count_ticks_app l1 l2 : count_ticks (l1 ++ l2) = (count_ticks l1 + count_ticks l2)%nat.
Proof. unfold count_ticks; rewrite filter_app, length_app; reflexivity. Qed.

(** The input phase never enqueues a tick and adds at most one event. *)
Lemma input_phase_queue tx p tx1 tr :
  input_phase tx p = (inr tx1, tr) ->
  tx1 = tx \/ exists k, tx1 = mkTx (tx.(queue) ++ [Input k]) true.
Proof.
  destruct p as [| |[|[k| |]]]; simpl; intros H; try discriminate;
    try (injection H as <- _; left; reflexivity).
  unfold send in H; destruct (receiver_alive tx); [|discriminate].
  injection H as <- _; right; exists k; reflexivity.
Qed.

(** The answers that stop the poller once its receiver is gone: a poll
    or read error, or a key event whose send then fails. *)
Definition fatal_poll (p : poll_outcome) : bool :=
  match p with
  | PollErr | PollSome ReadErr | PollSome (ReadOk (Key _)) => true
  | _ => false
  end.

(** ** Claims about the poller *)

(** C3 (as the code does it): every pass that reaches the tick check,
    whether or not a key arrived, compares the time elapsed since the
    last tick with [tick_rate]; when it is at least [tick_rate] one [Tick]
    send is attempted, and the clock is reset to the current instant only
    if that send succeeds (a failed send leaves the clock and the channel
    as they were); a pass enqueues at most one [Tick]. *)
Theorem poller_tick_check last tx o :
  match poller_iter last tx o with
  | (PRunning lt' tx', tr) =>
      exists tx1 tr1,
        input_phase tx o.(polled) = (inr tx1, tr1) /\
        let el := elapsed last o.(t_check) in
        let pre := PPoll (poll_timeout last o.(t_timeout)) :: tr1 in
        if tick_rate <=? el then
          if tx1.(receiver_alive) then
            lt' = o.(t_reset) /\ tx'.(queue) = tx1.(queue) ++ [Tick] /\
            tr = pre ++ [PCheckTick el; PSend Tick true; PResetTick o.(t_reset)]
          else lt' = last /\ tx' = tx1 /\ tr = pre ++ [PCheckTick el; PSend Tick false]
        else lt' = last /\ tx' = tx1 /\ tr = pre ++ [PCheckTick el]
  | (PDied _ tx', _) => tx' = tx
  end /\
  (count_ticks (match fst (poller_iter last tx o) with
                | PRunning _ tx' | PDied _ tx' => tx'.(queue) end)
     <= S (count_ticks tx.(queue)))%nat.
Proof.
  unfold poller_iter.
  destruct (input_phase tx (polled o)) as [[msg|tx1] tr1] eqn:Hin; [split; [reflexivity | simpl; lia]|].
  assert (Hq : count_ticks tx1.(queue) = count_ticks tx.(queue)).
  { destruct (input_phase_queue _ _ _ _ Hin) as [->|[k ->]]; [reflexivity|].
    simpl queue; rewrite count_ticks_app; change (count_ticks [Input k]) with 0%nat; lia. }
  unfold tick_phase, send; cbv beta zeta.
  destruct (tick_rate <=? elapsed last (t_check o)) eqn:Hel;
    [destruct (receiver_alive tx1) eqn:Hal|]; simpl.
  - split; [exists tx1, tr1; rewrite Hal; repeat split; reflexivity|].
    rewrite count_ticks_app, Hq; change (count_ticks [Tick]) with 1%nat; lia.
  - split; [exists tx1, tr1; rewrite Hal; repeat split; reflexivity|]. lia.
  - split; [exists tx1, tr1; repeat split; reflexivity|]. lia.
Qed.

(** C3 as stated fails: when the receiver is gone, a pass with
    [elapsed >= tick_rate] emits no [Tick] and does not reset the clock. *)
Lemma tick_clock_not_reset_on_failed_send :
  let o := mkObs (ms 300) PollNone (ms 300) (ms 301) in
  (tick_rate <= elapsed 0 o.(t_check)) /\
  fst (poller_iter 0 (mkTx [] false) o) = PRunning 0 (mkTx [] false).
Proof. split; [vm_compute; discriminate | reflexivity]. Qed.

(** C4: when a key event arrives within the timeout, the poller's first
    send of the pass is [Input(key)], made before the tick check; the
    tick check then runs with the unchanged [last_tick], so within the
    pass the [Input] is enqueued before any [Tick]. *)
Theorem poller_input_before_tick last tx o k :
  o.(polled) = PollSome (ReadOk (Key k)) ->
  exists ok rest,
    snd (poller_iter last tx o) =
      PPoll (poll_timeout last o.(t_timeout)) :: PRead :: PSend (Input k) ok :: rest /\
    ok = tx.(receiver_alive) /\
    (ok = true ->
     let tx1 := mkTx (tx.(queue) ++ [Input k]) true in
     poller_iter last tx o =
       (PRunning (fst (fst (tick_phase last tx1 o))) (snd (fst (tick_phase last tx1 o))),
        PPoll (poll_timeout last o.(t_timeout)) :: PRead :: PSend (Input k) true ::
          snd (tick_phase last tx1 o)) /\
     exists ticks,
       (snd (fst (tick_phase last tx1 o))).(queue) = tx.(queue) ++ [Input k] ++ ticks /\
       (ticks = [] \/ ticks = [Tick])).
Proof.
  intros Hp; unfold poller_iter; rewrite Hp; simpl; unfold send.
  destruct (receiver_alive tx) eqn:Hal.
  - unfold tick_phase, send; simpl.
    destruct (tick_rate <=? elapsed last (t_check o)); simpl.
    + eexists _, _; split; [reflexivity|]; split; [reflexivity|]; intros _.
      split; [reflexivity|]; exists [Tick]; split; [simpl; rewrite <- ?app_assoc; reflexivity|right; reflexivity].
    + eexists _, _; split; [reflexivity|]; split; [reflexivity|]; intros _.
      split; [reflexivity|]; exists []; split; [simpl; rewrite ?app_nil_r; reflexivity|left; reflexivity].
  - eexists _, []; split; [reflexivity|]; split; [reflexivity|]; discriminate.
Qed.

Lemma poller_input_before_tick_witness :
  let o := mkObs (ms 250) (PollSome (ReadOk (Key (key (Char char_x))))) (ms 260) (ms 260) in
  o.(polled) = PollSome (ReadOk (Key (key (Char char_x)))) /\
  exists ok rest,
    snd (poller_iter 0 (mkTx [] true) o) =
      PPoll (poll_timeout 0 o.(t_timeout)) :: PRead :: PSend (Input (key (Char char_x))) ok :: rest.
Proof.
  intros o; split; [reflexivity|].
  destruct (poller_input_before_tick 0 (mkTx [] true) o (key (Char char_x)) eq_refl)
    as (ok & rest & H & _).
  exists ok, rest; exact H.
Defined.

Definition is_char_q (k : KeyCode) : bool :=
  match k with Char c => N.eqb c char_q | _ => false end.

(** The events [handle_input] turns into [Quit]. *)
Definition is_q_input (ev : Event KeyEvent) : bool :=
  match ev with Input k => is_char_q k.(code) | Tick => false end.

Lemma handle_input_cons ev rest alive :
  handle_input (mkRx (ev :: rest) alive) =
    Some (Ok (if is_q_input ev then Quit else Continue), mkRx rest alive).
Proof.
  destruct ev as [[c m] |]; [|reflexivity].
  destruct c; try reflexivity; unfold handle_input, recv; simpl.
  destruct (N.eqb c char_q); reflexivity.
Qed.

Lemma is_q_input_spec ev :
  is_q_input ev = true -> exists k, ev = Input k /\ k.(code) = Char char_q.
Proof.
  destruct ev as [[c m] |]; simpl; [|discriminate].
  destruct c; try discriminate; simpl.
  intros H; apply N.eqb_eq in H; subst; exists (mkKeyEvent (Char char_q) m); split; reflexivity.
Qed.

(** Once every sender is gone, the loop always ends: after at most the
    queued events it returns, with [Ok] only through a queued [q]. *)
Lemma run_loop_dead_sender evs : forall fuel fl t,
  (List.length evs < fuel)%nat ->
  exists r t', run_loop fuel fl (mkRx evs false) t = Returned r t' /\
    (r = Ok tt -> exists k, In (Input k) evs /\ k.(code) = Char char_q).
Proof.
  induction evs as [|ev evs IH]; intros [|fuel] fl t Hlen; simpl in Hlen; try lia;
    simpl run_loop; unfold render_ui.
  - destruct (draw_fails fl (draws t)); simpl;
      (eexists _, _; split; [reflexivity | discriminate]).
  - destruct (draw_fails fl (draws t)); [eexists _, _; split; [reflexivity | discriminate]|].
    rewrite handle_input_cons.
    destruct (is_q_input ev) eqn:Hq.
    + destruct (is_q_input_spec ev Hq) as (k & -> & Hk).
      unfold disable_raw_mode, show_cursor.
      destruct (disable_raw_fails fl); [|destruct (show_cursor_fails fl)];
        (eexists _, _; split; [reflexivity|]); intros _; exists k; split; auto; left; reflexivity.
    + destruct (IH fuel fl (emit (set_hidden (mkTerm (raw_mode t) (hidden_cursor t)
                 (S (draws t)) (log t ++ [ADraw])) true) ARecv)) as (r & t' & Hrun & Hok);
        [lia|].
      exists r, t'; split; [exact Hrun|].
      intros Hr; destruct (Hok Hr) as (k & Hin & Hk); exists k; split; [right|]; assumption.
Qed.

Lemma main_dead_sender fl evs :
  exists c, exit_code (main fl (mkRx evs false)) = Some c /\
    (c = 0 -> exists k, In (Input k) evs /\ k.(code) = Char char_q).
Proof.
  unfold main.
  destruct (enable_raw_fails fl); [exists 101; split; [reflexivity|discriminate]|].
  destruct (terminal_new_fails fl); [exists 1; split; [reflexivity|discriminate]|].
  destruct (clear_fails fl); [exists 1; split; [reflexivity|discriminate]|].
  simpl pending.
  destruct (run_loop_dead_sender evs (S (List.length evs)) fl
              (emit (emit (set_raw (emit term0 AEnableRaw) true) ATerminalNew) AClear)
              (PeanoNat.Nat.lt_succ_diag_r _)) as (r & t' & Hrun & Hok).
  rewrite Hrun; simpl.
  destruct r as [[]|e]; [exists 0; split; [reflexivity| intros _; apply Hok; reflexivity]|].
  exists 1; split; [reflexivity|discriminate].
Qed.

(** C6 (as the code does it): a readiness-poll error, an event-read error,
    or a failed [Input] send makes an [expect] panic the poller thread:
    it stops for good, and only that thread ends (a panic in a spawned
    thread unwinds that thread). Its [tx] is dropped, so the Loop goes on
    with the events already queued and then ends: the program always
    exits, and with status 0 only if a queued [q] was dispatched. *)
Theorem poller_fatal_stops_thread last tx o os :
  fatal_poll o.(polled) = true ->
  (forall k, o.(polled) = PollSome (ReadOk (Key k)) -> tx.(receiver_alive) = false) ->
  exists msg,
    run_poller last tx (o :: os) = (PDied msg tx, snd (poller_iter last tx o)) /\
    forall fl, exists c, exit_code (main fl (rx_of (PDied msg tx))) = Some c /\
      (c = 0 -> exists k, In (Input k) tx.(queue) /\ k.(code) = Char char_q).
Proof.
  intros Hf Hk.
  assert (Hd : exists msg, fst (poller_iter last tx o) = PDied msg tx).
  { unfold poller_iter.
    destruct (polled o) as [| |[|[k| |]]] eqn:Hp; try discriminate; simpl;
      try (eexists; reflexivity).
    unfold send; rewrite (Hk k eq_refl); eexists; reflexivity. }
  destruct Hd as [msg Hd]; exists msg; split.
  - simpl; destruct (poller_iter last tx o) as [st tr]; simpl in Hd; subst st; reflexivity.
  - intros fl; exact (main_dead_sender fl (queue tx)).
Qed.

Lemma poller_fatal_stops_thread_witness :
  exists msg,
    run_poller 0 (mkTx [Tick] true) [mkObs 0 PollErr 0 0] =
      (PDied msg (mkTx [Tick] true), [PPoll tick_rate]).
Proof.
  destruct (poller_fatal_stops_thread 0 (mkTx [Tick] true) (mkObs 0 PollErr 0 0) []
              eq_refl (fun k H => match H with eq_refl => I end))
    as (msg & H & _).
  exists msg; exact H.
Defined.

(** C6 as stated fails: after a key [q] was forwarded, the next poll
    fails and the poller thread panics; the process is not terminated,
    the Loop draws, dispatches the queued [q] and exits with status 0. *)
Lemma poller_error_not_process_exit :
  let st := fst (run_poller 0 (mkTx [] true)
                   [mkObs (ms 10) (PollSome (ReadOk (Key (key (Char char_q))))) (ms 20) (ms 20);
                    mkObs (ms 20) PollErr (ms 30) (ms 30)]) in
  st = PDied "Polling is broken"%string (mkTx [Input (key (Char char_q))] true) /\
  exit_code (main no_faults (rx_of st)) = Some 0 /\
  (term_of (main no_faults (rx_of st))).(draws) = 1%nat.
Proof. repeat split; reflexivity. Qed.

(** With the receiver gone, one pass never sends anything successfully
    and changes neither the clock nor the channel; it keeps running
    unless its answer is fatal. *)
Lemma poller_iter_dead_receiver last tx o :
  tx.(receiver_alive) = false ->
  (forall ev ok, In (PSend ev ok) (snd (poller_iter last tx o)) -> ok = false) /\
  (fatal_poll o.(polled) = true -> exists msg, fst (poller_iter last tx o) = PDied msg tx) /\
  (fatal_poll o.(polled) = false -> fst (poller_iter last tx o) = PRunning last tx).
Proof.
  intros Hd; unfold poller_iter.
  destruct (polled o) as [| |[|[k| |]]]; simpl; unfold tick_phase, send; cbv beta zeta;
    rewrite ?Hd; simpl; try destruct (tick_rate <=? _); simpl;
    (split; [|split; intros Hf; try discriminate; try (eexists; reflexivity); reflexivity]);
    intros ev ok H;
    repeat (destruct H as [H|H]; try discriminate; try contradiction);
    injection H as _ <-; reflexivity.
Qed.

(** C7: when the receiver is gone, every [Tick] send fails and is
    swallowed: the poller neither panics because of it nor resets its
    clock, and a run whose answers are not fatal keeps looping with clock
    and channel unchanged, discarding every tick. *)
Theorem poller_tick_send_failure_swallowed last tx os :
  tx.(receiver_alive) = false ->
  (forall ok, In (PSend Tick ok) (snd (run_poller last tx os)) -> ok = false) /\
  (forallb (fun o => negb (fatal_poll o.(polled))) os = true ->
   fst (run_poller last tx os) = PRunning last tx).
Proof.
  intros Hd; induction os as [|o os [IH1 IH2]]; [split; [intros ok []|reflexivity]|].
  destruct (poller_iter_dead_receiver last tx o Hd) as (Hsend & Hfat & Hok).
  simpl; destruct (poller_iter last tx o) as [st tr] eqn:Hit; simpl in Hsend, Hfat, Hok.
  destruct st as [lt tx1|msg tx1].
  - destruct (fatal_poll (polled o)).
    { destruct (Hfat eq_refl) as [msg Hm]; discriminate. }
    injection (Hok eq_refl) as -> ->.
    destruct (run_poller last tx os) as [st' tr'] eqn:Hrun; simpl in IH1, IH2 |- *.
    split.
    + intros ok Hin; apply in_app_or in Hin as [Hin|Hin];
        [exact (Hsend _ _ Hin) | exact (IH1 _ Hin)].
    + intros Hall; exact (IH2 Hall).
  - split; [intros ok Hin; exact (Hsend _ _ Hin)|].
    intros Hall; apply andb_prop in Hall as [Hn _].
    destruct (fatal_poll (polled o)); [discriminate|].
    specialize (Hok eq_refl); discriminate.
Qed.

Lemma poller_tick_send_failure_swallowed_witness :
  let os := [mkObs (ms 300) PollNone (ms 300) (ms 301);
             mkObs (ms 301) PollNone (ms 600) (ms 601)] in
  receiver_alive (mkTx [] false) = false /\
  fst (run_poller 0 (mkTx [] false) os) = PRunning 0 (mkTx [] false).
Proof.
  intros os; split; [reflexivity|].
  exact (proj2 (poller_tick_send_failure_swallowed 0 (mkTx [] false) os eq_refl) eq_refl).
Defined.

(** C9: a terminal event that is not a key event is read and dropped:
    nothing is sent, and the pass ends exactly as a pass in which no
    event arrived (same clock, same channel), its trace only showing the
    extra read. *)
Theorem poller_ignores_non_key last tx o e :
  (forall k, e <> Key k) ->
  let with_e := mkObs o.(t_timeout) (PollSome (ReadOk e)) o.(t_check) o.(t_reset) in
  let none := mkObs o.(t_timeout) PollNone o.(t_check) o.(t_reset) in
  input_phase tx (PollSome (ReadOk e)) = (inr tx, [PRead]) /\
  fst (poller_iter last tx with_e) = fst (poller_iter last tx none) /\
  snd (poller_iter last tx with_e) =
    match snd (poller_iter last tx none) with
    | p :: rest => p :: PRead :: rest
    | [] => []
    end.
Proof.
  intros Hne; destruct e as [k|m|w h]; [exfalso; exact (Hne k eq_refl)| |];
    unfold poller_iter; simpl;
    destruct (tick_phase last tx _) as [[lt tx2] tr2]; repeat split.
Qed.

Lemma poller_ignores_non_key_witness :
  (forall k, Resize 80 24 <> Key k) /\
  fst (poller_iter 0 (mkTx [] true) (mkObs 0 (PollSome (ReadOk (Resize 80 24))) (ms 250) (ms 250)))
    = fst (poller_iter 0 (mkTx [] true) (mkObs 0 PollNone (ms 250) (ms 250))).
Proof.
  assert (Hne : forall k, Resize 80 24 <> Key k) by discriminate.
  split; [exact Hne|].
  exact (proj1 (proj2 (poller_ignores_non_key 0 (mkTx [] true)
                         (mkObs 0 PollNone (ms 250) (ms 250)) (Resize 80 24) Hne))).
Defined.

(** ** Further properties of [main] *)

(** A loop that returns [Ok] went through a dispatched [q]. *)
Lemma run_loop_ok_has_q fuel fl rx t t' :
  run_loop fuel fl rx t = Returned (Ok tt) t' ->
  exists k, In (Input k) rx.(pending) /\ k.(code) = Char char_q.
Proof.
  revert rx t; induction fuel as [|fuel IH]; intros [evs alive] t H; [discriminate|].
  simpl in H; unfold render_ui in H.
  destruct (draw_fails fl (draws t)); [discriminate|].
  destruct evs as [|ev evs].
  - unfold handle_input, recv in H; simpl in H; destruct alive; discriminate.
  - rewrite handle_input_cons in H; simpl.
    destruct (is_q_input ev) eqn:Hq.
    + destruct (is_q_input_spec ev Hq) as (k & -> & Hk); exists k; split; [left|]; auto.
    + destruct (IH _ _ H) as (k & Hin & Hk); exists k; split; [right|]; assumption.
Qed.

(** With no faults and no [q] among the events, the loop draws once per
    event plus once more, then blocks forever on a live channel or fails
    its receive on a dead one; raw mode stays as it was. *)
Lemma run_loop_no_q evs : forall fuel alive t,
  (forall ev, In ev evs -> is_q_input ev = false) ->
  (List.length evs < fuel)%nat ->
  exists t', run_loop fuel no_faults (mkRx evs alive) t =
               (if alive then Blocked t' else Returned (Err RecvError) t') /\
    t'.(draws) = (t.(draws) + List.length evs + 1)%nat /\ t'.(raw_mode) = t.(raw_mode).
Proof.
  induction evs as [|ev evs IH]; intros [|fuel] alive t Hno Hlen; simpl in Hlen; try lia.
  - simpl; unfold handle_input, recv; simpl.
    destruct alive; (eexists; split; [reflexivity | simpl; split; [lia | reflexivity]]).
  - simpl run_loop; unfold render_ui; simpl draw_fails; cbv iota.
    rewrite handle_input_cons, (Hno ev (or_introl eq_refl)).
    destruct (IH fuel alive (emit (set_hidden (mkTerm (raw_mode t) (hidden_cursor t)
                 (S (draws t)) (log t ++ [ADraw])) true) ARecv)) as (t' & Hrun & Hd & Hr);
      [intros ev' Hin; apply Hno; right; exact Hin | lia |].
    exists t'; split; [exact Hrun|]; simpl in Hd, Hr; split; [simpl; lia | exact Hr].
Qed.

(** With no faults, the loop quits at the first [q]: one draw per event
    up to and including it, then raw mode off and cursor shown. *)
Lemma run_loop_first_q pre k post : forall fuel alive t,
  (forall ev, In ev pre -> is_q_input ev = false) ->
  k.(code) = Char char_q ->
  (List.length pre < fuel)%nat ->
  exists t', run_loop fuel no_faults (mkRx (pre ++ Input k :: post) alive) t =
               Returned (Ok tt) t' /\
    t'.(draws) = (t.(draws) + List.length pre + 1)%nat /\
    t'.(raw_mode) = false /\ t'.(hidden_cursor) = false.
Proof.
  induction pre as [|ev pre IH]; intros [|fuel] alive t Hno Hk Hlen; simpl in Hlen; try lia.
  - destruct k as [c m]; simpl in Hk; subst c.
    eexists; split; [reflexivity | simpl; split; [lia | split; reflexivity]].
  - simpl run_loop; unfold render_ui; simpl draw_fails; cbv iota.
    rewrite <- ?app_comm_cons, handle_input_cons, (Hno ev (or_introl eq_refl)).
    destruct (IH fuel alive (emit (set_hidden (mkTerm (raw_mode t) (hidden_cursor t)
                 (S (draws t)) (log t ++ [ADraw])) true) ARecv)) as (t' & Hrun & Hd & Hr);
      [intros ev' Hin; apply Hno; right; exact Hin | exact Hk | lia |].
    exists t'; split; [exact Hrun|]; simpl in Hd; split; [simpl; lia | exact Hr].
Qed.

(** [main] exits with status 0 only after dispatching a [q]: every other
    way out of it (setup failure, draw or receive error, failed terminal
    restore) is a non-zero status. *)
Theorem main_success_needs_q fl rx :
  exit_code (main fl rx) = Some 0 ->
  exists k, In (Input k) rx.(pending) /\ k.(code) = Char char_q.
Proof.
  unfold main.
  destruct (enable_raw_fails fl); [discriminate|].
  destruct (terminal_new_fails fl); [discriminate|].
  destruct (clear_fails fl); [discriminate|].
  destruct (run_loop _ fl rx _) as [r t| | |] eqn:Hrun; simpl; try discriminate.
  destruct r as [[]|e]; [|discriminate]; intros _.
  exact (run_loop_ok_has_q _ _ _ _ _ Hrun).
Qed.

Lemma main_success_needs_q_witness :
  exit_code (main no_faults (mkRx [Tick; Input (key (Char char_q))] true)) = Some 0 /\
  exists k, In (Input k) [Tick; Input (key (Char char_q))] /\ k.(code) = Char char_q.
Proof.
  split; [reflexivity|].
  exact (main_success_needs_q no_faults (mkRx [Tick; Input (key (Char char_q))] true) eq_refl).
Defined.

(** With no failures, [main] quits at the first [q] on the channel, after
    one redraw per event up to and including it, with raw mode off, the
    cursor visible and exit status 0; later events are never read. *)
Theorem main_quits_at_first_q pre k post alive :
  (forall ev, In ev pre -> is_q_input ev = false) ->
  k.(code) = Char char_q ->
  let o := main no_faults (mkRx (pre ++ Input k :: post) alive) in
  exit_code o = Some 0 /\ (term_of o).(draws) = S (List.length pre) /\
  (term_of o).(raw_mode) = false /\ cursor_visible (term_of o) = true.
Proof.
  intros Hno Hk; unfold main; simpl pending; cbv beta zeta; simpl enable_raw_fails.
  cbv iota.
  destruct (run_loop_first_q pre k post (S (List.length (pre ++ Input k :: post))) alive
              (emit (emit (set_raw (emit term0 AEnableRaw) true) ATerminalNew) AClear)
              Hno Hk) as (t' & Hrun & Hd & Hr & Hh);
    [rewrite length_app; simpl; lia|].
  simpl terminal_new_fails; simpl clear_fails; cbv iota; rewrite Hrun.
  unfold finish, terminal_drop; rewrite Hh; simpl.
  simpl in Hd; repeat split; [lia | exact Hr | unfold cursor_visible; rewrite Hh; reflexivity].
Qed.

Lemma main_quits_at_first_q_witness :
  (forall ev, In ev [Tick; Input (key (Char char_x))] -> is_q_input ev = false) /\
  exit_code (main no_faults (mkRx ([Tick; Input (key (Char char_x))] ++
                                   Input (key (Char char_q)) :: [Tick]) true)) = Some 0.
Proof.
  assert (Hno : forall ev, In ev [Tick; Input (key (Char char_x))] -> is_q_input ev = false).
  { intros ev [<-|[<-|[]]]; reflexivity. }
  split; [exact Hno|].
  exact (proj1 (main_quits_at_first_q _ (key (Char char_q)) [Tick] true Hno eq_refl)).
Defined.

(** With no failures and no [q] on the channel, [main] redraws once per
    event and once more, then blocks forever in [recv] while the poller
    lives (raw mode still on), or exits with status 1 once every sender
    is gone, leaving raw mode on. *)
Theorem main_without_q evs alive :
  (forall ev, In ev evs -> is_q_input ev = false) ->
  let o := main no_faults (mkRx evs alive) in
  (term_of o).(draws) = S (List.length evs) /\ (term_of o).(raw_mode) = true /\
  (if alive then o = Blocked (term_of o) else exit_code o = Some 1).
Proof.
  intros Hno; unfold main; simpl pending; cbv beta zeta; simpl enable_raw_fails; cbv iota.
  simpl terminal_new_fails; simpl clear_fails; cbv iota.
  destruct (run_loop_no_q evs (S (List.length evs)) alive
              (emit (emit (set_raw (emit term0 AEnableRaw) true) ATerminalNew) AClear)
              Hno (PeanoNat.Nat.lt_succ_diag_r _)) as (t' & Hrun & Hd & Hr).
  rewrite Hrun; simpl in Hd, Hr.
  destruct alive; unfold finish; simpl.
  - repeat split; [lia | exact Hr].
  - unfold terminal_drop; simpl.
    destruct (hidden_cursor t'); simpl; repeat split; try lia; exact Hr.
Qed.

Lemma main_without_q_witness :
  (forall ev, In ev [Tick; Tick] -> is_q_input ev = false) /\
  (term_of (main no_faults (mkRx [Tick; Tick] true))).(draws) = 3%nat.
Proof.
  assert (Hno : forall ev, In ev [Tick; Tick] -> is_q_input ev = false).
  { intros ev [<-|[<-|[]]]; reflexivity. }
  split; [exact Hno|].
  exact (proj1 (main_without_q [Tick; Tick] true Hno)).
Defined.

(** Setup: a failed [enable_raw_mode] panics (status 101) before anything
    else; a failed [Terminal::new] or [terminal.clear()] returns the
    error (status 1) with raw mode left on; in no case is a frame drawn. *)
Theorem main_setup_failures fl rx :
  (fl.(enable_raw_fails) = true ->
     exit_code (main fl rx) = Some 101 /\ (term_of (main fl rx)).(raw_mode) = false) /\
  (fl.(enable_raw_fails) = false ->
   (fl.(terminal_new_fails) = true \/ fl.(clear_fails) = true) ->
     exit_code (main fl rx) = Some 1 /\ (term_of (main fl rx)).(raw_mode) = true) /\
  ((fl.(enable_raw_fails) || fl.(terminal_new_fails) || fl.(clear_fails))%bool = true ->
     ~ In ADraw (term_of (main fl rx)).(log)).
Proof.
  unfold main.
  destruct (enable_raw_fails fl), (terminal_new_fails fl), (clear_fails fl); simpl;
    repeat split; intros; try discriminate; try (destruct H0 as [H0|H0]; discriminate);
    try (intros Hin; repeat (destruct Hin as [Hin|Hin]; try discriminate); exact Hin).
Qed.

Definition fl_clear_fails : Faults :=
  mkFaults false false true (fun _ => false) false false.

Lemma main_setup_failures_witness :
  enable_raw_fails fl_clear_fails = false /\
  exit_code (main fl_clear_fails (mkRx [] true)) = Some 1.
Proof.
  split; [reflexivity|].
  exact (proj1 (proj1 (proj2 (main_setup_failures fl_clear_fails (mkRx [] true)))
                  eq_refl (or_intror eq_refl))).
Defined.

(** ** Further properties of the poller *)

(** The events a trace shows as sent successfully, in order. *)
Definition sent_events (tr : list paction) : list (Event KeyEvent) :=
  List.flat_map (fun a => match a with PSend ev true => [ev] | _ => [] end) tr.

Definition tx_of (st : PState) : Tx :=
  match st with PRunning _ tx | PDied _ tx => tx end.

(** The key events a sequence of passes reads. *)
Definition keys_read (os : list Obs) : list KeyEvent :=
  List.flat_map (fun o => match o.(polled) with
                          | PollSome (ReadOk (Key k)) => [k] | _ => [] end) os.

(** The key events carried by the [Input]s of a list of events. *)
Definition inputs_of (l : list (Event KeyEvent)) : list KeyEvent :=
  List.flat_map (fun ev => match ev with Input k => [k] | Tick => [] end) l.

(** Answers on which the poller's [expect]s fire whatever the channel. *)
Definition io_error (p : poll_outcome) : bool :=
  match p with PollErr | PollSome ReadErr => true | _ => false end.

Lemma sent_events_app l1 l2 : sent_events (l1 ++ l2) = sent_events l1 ++ sent_events l2.
Proof. unfold sent_events; apply flat_map_app. Qed.

Lemma inputs_of_app l1 l2 : inputs_of (l1 ++ l2) = inputs_of l1 ++ inputs_of l2.
Proof. unfold inputs_of; apply flat_map_app. Qed.

(** One pass appends to the channel exactly what it sends successfully,
    and never changes whether the receiver lives. *)
Lemma poller_iter_queue last tx o :
  (tx_of (fst (poller_iter last tx o))).(queue) =
    tx.(queue) ++ sent_events (snd (poller_iter last tx o)) /\
  (tx_of (fst (poller_iter last tx o))).(receiver_alive) = tx.(receiver_alive).
Proof.
  destruct tx as [q alive]; unfold poller_iter.
  destruct (polled o) as [| |[|[k| |]]]; simpl; unfold tick_phase, send; cbv beta zeta;
    destruct alive; simpl; try destruct (tick_rate <=? _); simpl;
    rewrite ?app_nil_r, <- ?app_assoc; split; reflexivity.
Qed.

(** With a live receiver and no poll or read error, one pass keeps
    running and the [Input]s it sends are the key events it read. *)
Lemma poller_iter_live last tx o :
  tx.(receiver_alive) = true -> io_error o.(polled) = false ->
  (exists lt tx', fst (poller_iter last tx o) = PRunning lt tx') /\
  inputs_of (sent_events (snd (poller_iter last tx o))) = keys_read [o].
Proof.
  destruct tx as [q alive]; simpl; intros -> Hio; unfold poller_iter, keys_read; simpl.
  destruct (polled o) as [| |[|[k| |]]]; simpl in Hio |- *; try discriminate;
    unfold tick_phase, send; cbv beta zeta; simpl; try destruct (tick_rate <=? _); simpl;
    (split; [eexists _, _; reflexivity | reflexivity]).
Qed.

Lemma keys_read_cons o os : keys_read (o :: os) = keys_read [o] ++ keys_read os.
Proof. unfold keys_read; simpl; rewrite app_nil_r; reflexivity. Qed.

Lemma poller_iter_ticks last tx o :
  (count_ticks (sent_events (snd (poller_iter last tx o))) <= 1)%nat.
Proof.
  destruct tx as [q alive]; unfold poller_iter.
  destruct (polled o) as [| |[|[k| |]]]; simpl; unfold tick_phase, send; cbv beta zeta;
    destruct alive; simpl; try destruct (tick_rate <=? _); simpl; vm_compute; lia.
Qed.

(** With a live receiver and no poll or read error, the poller keeps
    running and forwards every key event it reads, in order: the
    [Input]s added to the channel are exactly the keys read. *)
Theorem run_poller_forwards_keys last tx os :
  tx.(receiver_alive) = true ->
  forallb (fun o => negb (io_error o.(polled))) os = true ->
  exists lt tx', fst (run_poller last tx os) = PRunning lt tx' /\
    tx'.(receiver_alive) = true /\
    inputs_of tx'.(queue) = inputs_of tx.(queue) ++ keys_read os.
Proof.
  revert last tx; induction os as [|o os IH]; intros last tx Hal Hall.
  - exists last, tx; rewrite app_nil_r; repeat split; assumption.
  - simpl in Hall; apply andb_prop in Hall as [Hio Hall]; apply negb_true_iff in Hio.
    destruct (poller_iter_live last tx o Hal Hio) as [(lt & tx1 & Hst) Hin].
    destruct (poller_iter_queue last tx o) as [Hq Ha].
    rewrite keys_read_cons; cbn [run_poller].
    destruct (poller_iter last tx o) as [st tr]; cbn [fst snd] in Hst, Hin, Hq, Ha; subst st.
    cbn [tx_of] in Hq, Ha.
    destruct (IH lt tx1 (eq_trans Ha Hal) Hall) as (lt' & tx' & Hrun & Hal' & Hin').
    destruct (run_poller lt tx1 os) as [st' tr']; cbn [fst] in Hrun |- *; subst st'.
    exists lt', tx'; split; [reflexivity|]; split; [exact Hal'|].
    rewrite Hin', Hq, inputs_of_app, Hin, <- app_assoc; reflexivity.
Qed.

Lemma run_poller_forwards_keys_witness :
  let os := [mkObs 0 (PollSome (ReadOk (Key (key (Char char_x))))) (ms 10) (ms 10);
             mkObs (ms 10) (PollSome (ReadOk (Resize 80 24))) (ms 20) (ms 20);
             mkObs (ms 20) PollNone (ms 200) (ms 200)] in
  forallb (fun o => negb (io_error o.(polled))) os = true /\
  exists lt tx', fst (run_poller 0 (mkTx [] true) os) = PRunning lt tx' /\
    inputs_of tx'.(queue) = [key (Char char_x)].
Proof.
  intros os; split; [reflexivity|].
  destruct (run_poller_forwards_keys 0 (mkTx [] true) os eq_refl eq_refl)
    as (lt & tx' & H & _ & Hin).
  exists lt, tx'; split; [exact H | exact Hin].
Defined.

(** However the passes are timed, a run of [n] passes adds at most [n]
    ticks to the channel: missed intervals are never caught up. *)
Theorem run_poller_ticks_per_pass last tx os :
  (count_ticks (tx_of (fst (run_poller last tx os))).(queue) <=
     count_ticks tx.(queue) + List.length os)%nat.
Proof.
  revert last tx; induction os as [|o os IH]; intros last tx; [simpl; lia|].
  simpl; pose proof (poller_iter_ticks last tx o) as Ht.
  destruct (poller_iter_queue last tx o) as [Hq _].
  destruct (poller_iter last tx o) as [[lt tx1|msg tx1] tr]; simpl in Ht, Hq |- *.
  - specialize (IH lt tx1).
    destruct (run_poller lt tx1 os) as [st' tr']; simpl in IH |- *.
    rewrite Hq, count_ticks_app in IH; lia.
  - rewrite Hq, count_ticks_app; lia.
Qed.
